(** * iff: shell-history picker (src/main.rs), shallow embedding

    A Rust [char] is a Unicode scalar value, modelled as [N]; a Rust
    [String] / [&str] is the sequence of its characters, [list N].
    Byte offsets returned by [str::find] for the one-byte ASCII
    characters used by the program coincide with the character-level
    positions used here. *)

From stdpp Require Import base list gmap sets strings.
From Stdlib Require Import Ascii NArith Lia Sorted.

Abbreviation rchar := N.
Abbreviation rstring := (list N).

(** ASCII literals used by the program. *)
Definition ch_space : N := 32.   (* ' ' *)
Definition ch_quote : N := 34.   (* double quote *)
Definition ch_colon : N := 58.   (* ':' *)
Definition ch_semi : N := 59.    (* ';' *)
Definition ch_j : N := 106.      (* 'j' *)
Definition ch_k : N := 107.      (* 'k' *)
Definition ch_q : N := 113.      (* 'q' *)

(** A Rocq string literal read as a Rust string (ASCII only). *)
Definition rs (x : string) : rstring :=
  map Ascii.N_of_ascii (String.list_ascii_of_string x).

(** [str::is_empty] *)
Definition is_empty (x : rstring) : bool :=
  match x with [] => true | _ => false end.

(** ** [str::contains] on a string needle *)

Fixpoint is_prefix (p x : rstring) : bool :=
  match p, x with
  | [], _ => true
  | a :: p', b :: x' => N.eqb a b && is_prefix p' x'
  | _ :: _, [] => false
  end.

(** [contains hay needle]: [needle] occurs as a contiguous run of [hay]. *)
Fixpoint contains (hay needle : rstring) : bool :=
  is_prefix needle hay ||
  match hay with [] => false | _ :: hay' => contains hay' needle end.

(** [Iterator::enumerate] over a slice. *)
Definition enumerate {A} (l : list A) : list (nat * A) :=
  combine (seq 0 (length l)) l.

Section Filter.

(** [str::to_lowercase] (Unicode case mapping, including the
    context-dependent final sigma), left abstract. *)
Variable to_lowercase : rstring -> rstring.

(** [App::filter_commands] *)
Definition filter_commands (commands : list rstring) (query : rstring) : list nat :=
  if is_empty query then seq 0 (length commands)
  else map fst
         (List.filter
            (fun '(_, cmd) => contains (to_lowercase cmd) (to_lowercase query))
            (enumerate commands)).

(** Case-insensitive containment of the query in history entry [i]. *)
Definition entry_matches (commands : list rstring) (query : rstring) (i : nat) : bool :=
  match commands !! i with
  | Some cmd => contains (to_lowercase cmd) (to_lowercase query)
  | None => false
  end.

Lemma enumerate_filter_from (f : rstring -> bool) (commands : list rstring) (k : nat) :
  map fst (List.filter (fun '(_, cmd) => f cmd) (combine (seq k (length commands)) commands)) =
  List.filter (fun i => match commands !! (i - k) with Some c => f c | None => false end)
    (seq k (length commands)).
Proof.
  revert k; induction commands as [|c cs IH]; intros k; [reflexivity|].
  assert (Htl : List.filter (fun i => match cs !! (i - S k) with Some c0 => f c0 | None => false end)
                  (seq (S k) (length cs)) =
                List.filter (fun i => match (c :: cs) !! (i - k) with Some c0 => f c0 | None => false end)
                  (seq (S k) (length cs))).
  { apply List.filter_ext_in; intros i Hi.
    apply in_seq in Hi.
    replace (i - k) with (S (i - S k)) by lia. reflexivity. }
  cbn [length seq combine List.filter].
  rewrite Nat.sub_diag; cbn [lookup list_lookup].
  destruct (f c); cbn [map fst]; rewrite IH, Htl; reflexivity.
Qed.

Lemma filter_commands_in_bounds (commands : list rstring) (query : rstring) (i : nat) :
  In i (filter_commands commands query) -> i < length commands.
Proof.
  unfold filter_commands, enumerate.
  destruct (is_empty query).
  - intros Hi; apply in_seq in Hi; lia.
  - rewrite (enumerate_filter_from (fun cmd => contains (to_lowercase cmd) (to_lowercase query))).
    intros Hi; apply filter_In in Hi as [Hi _]; apply in_seq in Hi; lia.
Qed.

(** Claim C1: with an empty query the filtered view is the identity
    sequence [0 .. len-1]; otherwise it is exactly the indices [i], in
    increasing order, whose lowercased entry contains the lowercased
    query. *)
Theorem filter_commands_correct (commands : list rstring) (query : rstring) :
  filter_commands commands query =
    if is_empty query then seq 0 (length commands)
    else List.filter (entry_matches commands query) (seq 0 (length commands)).
Proof.
  unfold filter_commands, enumerate.
  destruct (is_empty query) eqn:Hq; [reflexivity|].
  rewrite (enumerate_filter_from (fun cmd => contains (to_lowercase cmd) (to_lowercase query))).
  apply List.filter_ext_in; intros i _.
  unfold entry_matches; rewrite Nat.sub_0_r; reflexivity.
Qed.

End Filter.

(** ** History loader: [App::load_history], from [content.lines()] on *)

(** [char::is_whitespace]: the Unicode White_Space property. *)
Definition is_whitespace (c : rchar) : bool :=
  ((9 <=? c) && (c <=? 13))%N || (c =? 32)%N || (c =? 133)%N || (c =? 160)%N
  || (c =? 5760)%N || ((8192 <=? c) && (c <=? 8202))%N || (c =? 8232)%N
  || (c =? 8233)%N || (c =? 8239)%N || (c =? 8287)%N || (c =? 12288)%N.

Fixpoint trim_start (x : rstring) : rstring :=
  match x with
  | c :: x' => if is_whitespace c then trim_start x' else x
  | [] => []
  end.

Definition trim_end (x : rstring) : rstring := rev (trim_start (rev x)).

(** [str::trim] *)
Definition trim (x : rstring) : rstring := trim_end (trim_start x).

(** [line.starts_with(":")] *)
Definition starts_with_colon (line : rstring) : bool :=
  match line with c :: _ => N.eqb c ch_colon | [] => false end.

(** [line.find(c)] for a one-byte character [c]. *)
Fixpoint find_char (c : rchar) (line : rstring) : option nat :=
  match line with
  | [] => None
  | d :: line' => if N.eqb d c then Some 0 else option_map S (find_char c line')
  end.

(** The closure passed to [.map] (zsh extended-history prefix). *)
Definition normalize_line (line : rstring) : rstring :=
  if starts_with_colon line then
    match find_char ch_semi line with
    | Some pos => drop (pos + 1) line
    | None => line
    end
  else line.

(** [.map(..).filter(|cmd| !cmd.trim().is_empty()).collect()] *)
Definition clean_lines (lines : list rstring) : list rstring :=
  List.filter (fun cmd => negb (is_empty (trim cmd))) (map normalize_line lines).

(** [HashSet::insert]: [true] when the value was not yet present. *)
Definition hashset_insert (x : rstring) (seen : gset rstring) : bool * gset rstring :=
  if decide (x ∈ seen) then (false, seen) else (true, {[x]} ∪ seen).

(** [commands.retain(|cmd| seen.insert(cmd.clone()))], threading [seen]. *)
Fixpoint retain_seen (seen : gset rstring) (commands : list rstring) : list rstring :=
  match commands with
  | [] => []
  | x :: commands' =>
      let '(fresh, seen') := hashset_insert x seen in
      if fresh then x :: retain_seen seen' commands' else retain_seen seen' commands'
  end.

(** The loader body on the file's lines: normalise, drop blank
    commands, [commands.reverse()], then deduplicate. *)
Definition load_lines (lines : list rstring) : list rstring :=
  retain_seen ∅ (rev (clean_lines lines)).

(** The deduplication as the spec words it: keep the entry at position
    [i] exactly when its text does not occur at an earlier position. *)
Definition dedup_first_spec (l : list rstring) : list rstring :=
  map snd (List.filter (fun '(i, x) => negb (bool_decide (x ∈ take i l))) (enumerate l)).

Lemma retain_seen_prefix (l pre : list rstring) (seen : gset rstring) :
  (forall y, y ∈ seen <-> y ∈ pre) ->
  retain_seen seen l =
  map snd (List.filter (fun '(i, x) => negb (bool_decide (x ∈ take i (pre ++ l))))
             (combine (seq (length pre) (length l)) l)).
Proof.
  revert pre seen; induction l as [|x l IH]; intros pre seen Hseen; [reflexivity|].
  assert (Hlen : length (pre ++ [x]) = S (length pre)) by (rewrite length_app; simpl; lia).
  assert (Happ : (pre ++ [x]) ++ l = pre ++ x :: l) by (rewrite <- app_assoc; reflexivity).
  cbn [retain_seen length seq combine List.filter].
  rewrite take_app_length.
  unfold hashset_insert.
  destruct (decide (x ∈ seen)) as [Hin|Hnin].
  - rewrite (IH (pre ++ [x]) seen), Hlen, Happ.
    + rewrite bool_decide_true by (apply Hseen; exact Hin). reflexivity.
    + intros y; rewrite Hseen, elem_of_app, list_elem_of_singleton.
      split; [tauto|]. intros [H | ->]; [exact H|apply Hseen; exact Hin].
  - rewrite (IH (pre ++ [x]) ({[x]} ∪ seen)), Hlen, Happ.
    + rewrite bool_decide_false by (rewrite <- Hseen; exact Hnin). reflexivity.
    + intros y; rewrite elem_of_union, elem_of_singleton, Hseen, elem_of_app,
        list_elem_of_singleton. tauto.
Qed.

Lemma retain_seen_dedup_first_spec (l : list rstring) :
  retain_seen ∅ l = dedup_first_spec l.
Proof.
  rewrite (retain_seen_prefix l [] ∅); [reflexivity|].
  intros y; split; intros H; [set_solver|inversion H].
Qed.

Lemma retain_seen_elem (l : list rstring) (seen : gset rstring) (y : rstring) :
  y ∈ retain_seen seen l <-> y ∈ l /\ y ∉ seen.
Proof.
  revert seen; induction l as [|x l IH]; intros seen; cbn [retain_seen].
  - split; [intros H; inversion H|intros [H _]; inversion H].
  - unfold hashset_insert.
    destruct (decide (x ∈ seen)) as [Hin|Hnin].
    + rewrite IH, elem_of_cons. split; [tauto|].
      intros [ [-> | H] Hy]; [contradiction|tauto].
    + rewrite elem_of_cons, IH, elem_of_cons, elem_of_union, elem_of_singleton.
      destruct (decide (y = x)) as [->|Hne]; tauto.
Qed.

Lemma retain_seen_nodup (l : list rstring) (seen : gset rstring) :
  NoDup (retain_seen seen l).
Proof.
  revert seen; induction l as [|x l IH]; intros seen; cbn [retain_seen].
  - constructor.
  - unfold hashset_insert.
    destruct (decide (x ∈ seen)); [apply IH|].
    constructor; [|apply IH].
    rewrite retain_seen_elem, elem_of_union, elem_of_singleton. tauto.
Qed.

(** Claim C2: the loaded history is the reversed (most recent first)
    list of commands with every text kept only at its first position in
    that order, i.e. its chronologically latest occurrence; survivors
    keep their relative order, are pairwise distinct, and every command
    of the file survives; the file [ls], [cd /tmp], [ls -la], [ls]
    loads as [ls], [ls -la], [cd /tmp]. *)
Theorem load_lines_dedup_latest (lines : list rstring) :
  load_lines lines = dedup_first_spec (rev (clean_lines lines)) /\
  NoDup (load_lines lines) /\
  (forall x, x ∈ load_lines lines <-> x ∈ clean_lines lines) /\
  load_lines [rs "ls"; rs "cd /tmp"; rs "ls -la"; rs "ls"] =
    [rs "ls"; rs "ls -la"; rs "cd /tmp"].
Proof.
  unfold load_lines. split; [apply retain_seen_dedup_first_spec|].
  split; [apply retain_seen_nodup|]. split.
  - intros x. rewrite retain_seen_elem, !list_elem_of_In, <- in_rev. set_solver.
  - vm_compute. reflexivity.
Qed.

Lemma find_char_not_in (c : rchar) (line : rstring) :
  c ∉ line -> find_char c line = None.
Proof.
  induction line as [|d line IH]; intros Hc; [reflexivity|].
  cbn [find_char]. rewrite elem_of_cons in Hc.
  destruct (N.eqb_spec d c) as [->|_]; [tauto|].
  rewrite IH by tauto. reflexivity.
Qed.

Lemma find_char_app (c : rchar) (pre rest : rstring) :
  c ∉ pre -> find_char c (pre ++ c :: rest) = Some (length pre).
Proof.
  induction pre as [|d pre IH]; intros Hc; cbn [find_char app length].
  - rewrite N.eqb_refl. reflexivity.
  - rewrite elem_of_cons in Hc.
    destruct (N.eqb_spec d c) as [->|_]; [tauto|].
    rewrite IH by tauto. reflexivity.
Qed.

(** Claim C8: a line starting with [:] loses everything up to and
    including its first [;]; a line not starting with [:] is kept
    verbatim (as is a [:] line without any [;]); commands that are
    empty after trimming are dropped and the others kept in order; the
    line [:1610000000:0;ls -la] loads as [ls -la]. *)
Theorem normalize_line_correct :
  (forall pre rest : rstring, ch_semi ∉ pre ->
     normalize_line (ch_colon :: pre ++ ch_semi :: rest) = rest) /\
  (forall line : rstring, starts_with_colon line = false -> normalize_line line = line) /\
  (forall line : rstring, ch_semi ∉ line -> normalize_line line = line) /\
  (forall (lines : list rstring) (cmd : rstring),
     cmd ∈ clean_lines lines <->
     (exists line, line ∈ lines /\ cmd = normalize_line line) /\ trim cmd <> []) /\
  load_lines [rs ":1610000000:0;ls -la"] = [rs "ls -la"].
Proof.
  split; [|split; [|split; [|split]]].
  - intros pre rest Hpre. unfold normalize_line; cbn [starts_with_colon].
    rewrite N.eqb_refl. cbn [find_char].
    replace (N.eqb ch_colon ch_semi) with false by reflexivity.
    rewrite find_char_app by exact Hpre. cbn [option_map].
    replace (S (length pre) + 1) with (S (S (length pre))) by lia.
    cbn [drop]. change (ch_semi :: rest) with ([ch_semi] ++ rest).
    rewrite app_assoc, drop_app_length'; [reflexivity|rewrite length_app; simpl; lia].
  - intros line H. unfold normalize_line. rewrite H. reflexivity.
  - intros line H. unfold normalize_line. rewrite find_char_not_in by exact H.
    destruct (starts_with_colon line); reflexivity.
  - intros lines cmd. unfold clean_lines.
    rewrite !list_elem_of_In, filter_In, in_map_iff.
    split.
    + intros [[line [<- Hl]] Hne]. split.
      * exists line. rewrite list_elem_of_In. auto.
      * destruct (trim (normalize_line line)); [discriminate|congruence].
    + intros [[line [Hl ->]] Hne]. split.
      * exists line. rewrite <- list_elem_of_In. auto.
      * destruct (trim (normalize_line line)); [congruence|reflexivity].
  - vm_compute. reflexivity.
Qed.

(** ** Launcher: [parse_command_string] *)

Record parse_state := mkParseState {
  parts : list rstring;
  current : rstring;
  in_quotes : bool
}.

(** One iteration of the [for c in input.chars()] loop. *)
Definition parse_step (st : parse_state) (c : rchar) : parse_state :=
  if N.eqb c ch_quote then
    mkParseState (parts st) (current st) (negb (in_quotes st))
  else if N.eqb c ch_space && negb (in_quotes st) then
    (if is_empty (current st) then st
     else mkParseState (parts st ++ [current st]) [] (in_quotes st))
  else mkParseState (parts st) (current st ++ [c]) (in_quotes st).

(** [if !current.is_empty() { parts.push(current) }] after the loop. *)
Definition flush (st : parse_state) : list rstring :=
  if is_empty (current st) then parts st else parts st ++ [current st].

Definition parse_tokens (input : rstring) : list rstring :=
  flush (fold_left parse_step input (mkParseState [] [] false)).

(** [parse_command_string]: program = [parts.first()] or the empty
    string, args = [parts.into_iter().skip(1)]. *)
Definition parse_command_string (input : rstring) : rstring * list rstring :=
  let ps := parse_tokens input in
  (match ps with p :: _ => p | [] => [] end, drop 1 ps).

(** The tokenizer as the spec words it: every character is tagged with
    the quote mode in force when it is read (each quote toggles it), the
    input is cut at the spaces read outside quotes, quotes are removed
    from every piece, and empty pieces are discarded; the first piece is
    the program, the rest are its arguments. *)
Fixpoint quote_modes (inq : bool) (input : rstring) : list (rchar * bool) :=
  match input with
  | [] => []
  | c :: input' => (c, inq) :: quote_modes (if N.eqb c ch_quote then negb inq else inq) input'
  end.

Fixpoint split_at_seps {A} (sep : A -> bool) (l : list A) : list (list A) :=
  match l with
  | [] => [[]]
  | x :: l' =>
      let pieces := split_at_seps sep l' in
      if sep x then [] :: pieces
      else match pieces with
           | piece :: rest => (x :: piece) :: rest
           | [] => [[x]]
           end
  end.

Definition unquoted_space (p : rchar * bool) : bool :=
  N.eqb (fst p) ch_space && negb (snd p).

Definition drop_quotes (piece : list (rchar * bool)) : rstring :=
  List.filter (fun c => negb (N.eqb c ch_quote)) (map fst piece).

Definition spec_tokens (input : rstring) : list rstring :=
  List.filter (fun t => negb (is_empty t))
    (map drop_quotes (split_at_seps unquoted_space (quote_modes false input))).

Definition spec_parse (input : rstring) : rstring * list rstring :=
  match spec_tokens input with
  | [] => ([], [])
  | program :: args => (program, args)
  end.

(** The command line [git commit -m "fix bug"], quotes included. *)
Definition git_commit_input : rstring :=
  rs "git commit -m " ++ [ch_quote] ++ rs "fix bug" ++ [ch_quote].

(** Claim C3 (counterexample): [git commit -m "fix bug"] does not parse
    as program [git] with the four arguments [commit], [-m], [fix],
    [bug]. *)
Lemma parse_git_commit_not_four_args :
  parse_command_string git_commit_input <>
    (rs "git", [rs "commit"; rs "-m"; rs "fix"; rs "bug"]).
Proof. vm_compute. discriminate. Qed.

(** Claim C3 (amended): [git commit -m "fix bug"] parses as program
    [git] with the three arguments [commit], [-m] and [fix bug]: the
    space inside the quotes is not a token boundary. *)
Theorem parse_git_commit_example :
  parse_command_string git_commit_input =
    (rs "git", [rs "commit"; rs "-m"; rs "fix bug"]).
Proof. vm_compute. reflexivity. Qed.

(** Tokens still to be emitted when [cur] is the token being built and
    [pieces] is the spec's cut of the remaining input. *)
Definition tokens_with (cur : rstring) (pieces : list (list (rchar * bool))) : list rstring :=
  match pieces with
  | [] => List.filter (fun t => negb (is_empty t)) [cur]
  | p0 :: rest =>
      List.filter (fun t => negb (is_empty t)) ((cur ++ drop_quotes p0) :: map drop_quotes rest)
  end.

Lemma tokens_with_quote (cur : rstring) (b : bool) (pieces : list (list (rchar * bool))) :
  tokens_with cur (match pieces with
                   | piece :: rest => ((ch_quote, b) :: piece) :: rest
                   | [] => [[(ch_quote, b)]]
                   end) = tokens_with cur pieces.
Proof.
  destruct pieces as [|p0 rest]; cbn [tokens_with].
  - unfold drop_quotes; cbn. rewrite ?app_nil_r. reflexivity.
  - reflexivity.
Qed.

Lemma tokens_with_char (cur : rstring) (c : rchar) (b : bool)
    (pieces : list (list (rchar * bool))) :
  N.eqb c ch_quote = false ->
  tokens_with cur (match pieces with
                   | piece :: rest => ((c, b) :: piece) :: rest
                   | [] => [[(c, b)]]
                   end) = tokens_with (cur ++ [c]) pieces.
Proof.
  intros Hc. destruct pieces as [|p0 rest]; cbn [tokens_with];
    unfold drop_quotes; cbn [map fst List.filter]; rewrite Hc; cbn [negb].
  - rewrite ?app_nil_r. reflexivity.
  - rewrite <- app_assoc. reflexivity.
Qed.

Lemma tokens_with_sep (cur : rstring) (pieces : list (list (rchar * bool))) :
  tokens_with cur ([] :: pieces) =
    List.filter (fun t => negb (is_empty t)) [cur] ++ tokens_with [] pieces.
Proof.
  destruct pieces as [|p0 rest]; cbn [tokens_with app]; unfold drop_quotes at 1;
    cbn [map List.filter]; rewrite ?app_nil_r; destruct cur; reflexivity.
Qed.

Lemma parse_loop_tokens (input : rstring) (P : list rstring) (cur : rstring) (inq : bool) :
  flush (fold_left parse_step input (mkParseState P cur inq)) =
    P ++ tokens_with cur (split_at_seps unquoted_space (quote_modes inq input)).
Proof.
  revert P cur inq; induction input as [|c input IH]; intros P cur inq.
  - cbn. unfold flush, drop_quotes; cbn. rewrite ?app_nil_r.
    destruct cur; cbn; [rewrite ?app_nil_r|]; reflexivity.
  - cbn [fold_left quote_modes split_at_seps].
    unfold parse_step at 2; cbn [parts current in_quotes].
    destruct (N.eqb c ch_quote) eqn:Hq.
    + apply N.eqb_eq in Hq; subst c.
      replace (unquoted_space (ch_quote, inq)) with false by reflexivity.
      rewrite tokens_with_quote, IH. reflexivity.
    + unfold unquoted_space at 1; cbn [fst snd].
      destruct (N.eqb c ch_space && negb inq) eqn:Hs.
      * rewrite tokens_with_sep.
        destruct cur as [|a cur]; cbn [is_empty].
        -- rewrite IH. reflexivity.
        -- rewrite IH, app_assoc. reflexivity.
      * rewrite tokens_with_char by exact Hq. apply IH.
Qed.

Lemma parse_tokens_spec (input : rstring) : parse_tokens input = spec_tokens input.
Proof.
  unfold parse_tokens, spec_tokens. rewrite parse_loop_tokens.
  cbn [app]. destruct (split_at_seps unquoted_space (quote_modes false input)); reflexivity.
Qed.

(** Claim C4: [parse_command_string] is the spec's tokenizer: quotes
    toggle the quote mode and are never emitted, only spaces outside
    quotes separate tokens, no empty token is produced, the first token
    is the program and the others are its arguments in order, and the
    empty input gives an empty program and no arguments. *)
Theorem parse_command_string_refines_spec (input : rstring) :
  parse_command_string input = spec_parse input /\
  Forall (fun t => t <> [] /\ (ch_quote ∉ t)) (parse_tokens input) /\
  parse_command_string [] = ([], []).
Proof.
  split; [|split; [|reflexivity]].
  - unfold parse_command_string, spec_parse. rewrite parse_tokens_spec.
    destruct (spec_tokens input); reflexivity.
  - rewrite parse_tokens_spec. unfold spec_tokens.
    apply Forall_forall. intros t Ht.
    rewrite list_elem_of_In in Ht. apply filter_In in Ht as [Ht Hne].
    apply in_map_iff in Ht as [piece [<- _]].
    split; [destruct (drop_quotes piece); [discriminate|congruence]|].
    unfold drop_quotes. rewrite list_elem_of_In, filter_In.
    intros [_ Hq]. rewrite N.eqb_refl in Hq. discriminate.
Qed.

(** ** Filter/selection engine: [struct App] and its methods *)

(** [App]; [list_state] is represented by its selected index
    ([ListState::selected]), the only part the methods read. *)
Record App := mkApp {
  should_quit : bool;
  command_history : list rstring;
  selected : option nat;
  search_input : rstring;
  filtered_commands : list nat;
  selected_command : option rstring
}.

(** [crossterm::event::KeyCode], the variants [handle_key] tells apart;
    [KOther] stands for all the others. *)
Inductive KeyCode :=
| KChar (c : rchar)
| KEsc
| KDown
| KUp
| KBackspace
| KEnter
| KOther.

(** [list_state.select(sel)] *)
Definition set_selected (app : App) (sel : option nat) : App :=
  mkApp (should_quit app) (command_history app) sel (search_input app)
    (filtered_commands app) (selected_command app).

(** [self.should_quit = true] *)
Definition set_quit (app : App) : App :=
  mkApp true (command_history app) (selected app) (search_input app)
    (filtered_commands app) (selected_command app).

Definition set_search (app : App) (q : rstring) : App :=
  mkApp (should_quit app) (command_history app) (selected app) q
    (filtered_commands app) (selected_command app).

Definition set_selected_command (app : App) (cmd : option rstring) : App :=
  mkApp (should_quit app) (command_history app) (selected app) (search_input app)
    (filtered_commands app) cmd.

(** [[String]::join(sep)] *)
Fixpoint join (sep : rstring) (l : list rstring) : rstring :=
  match l with
  | [] => []
  | [x] => x
  | x :: l' => x ++ sep ++ join sep l'
  end.

(** [App::select_next] *)
Definition select_next (app : App) : App :=
  match filtered_commands app with
  | [] => app
  | _ =>
      let i := match selected app with
               | Some i => if length (filtered_commands app) - 1 <=? i then 0 else i + 1
               | None => 0
               end in
      set_selected app (Some i)
  end.

(** [App::select_previous] *)
Definition select_previous (app : App) : App :=
  match filtered_commands app with
  | [] => app
  | _ =>
      let i := match selected app with
               | Some i => if i =? 0 then length (filtered_commands app) - 1 else i - 1
               | None => 0
               end in
      set_selected app (Some i)
  end.

(** Selection after the filtered view is (re)computed. *)
Definition first_or_none (filtered : list nat) : option nat :=
  match filtered with [] => None | _ => Some 0 end.

(** What [main] does after the loop. [Exec] is [Command::new(com).args(args).exec()]
    (on failure it prints and exits with status 1); [Exit 0] is [Ok(())]. *)
Inductive Outcome :=
| Exec (program : rstring) (args : list rstring)
| Exit (code : nat).

Definition after_loop (app : App) : Outcome :=
  match selected_command app with
  | Some command => let '(com, args) := parse_command_string command in Exec com args
  | None => Exit 0
  end.

(** [str::to_lowercase] on ASCII text, for concrete runs. *)
Definition ascii_to_lowercase (x : rstring) : rstring :=
  map (fun c => if (65 <=? c)%N && (c <=? 90)%N then (c + 32)%N else c) x.

Section Engine.

Variable to_lowercase : rstring -> rstring.

(** [App::new], given the loaded history. *)
Definition app_new (command_history : list rstring) (initial_args : list rstring) : App :=
  let search_input := join [ch_space] initial_args in
  let filtered := filter_commands to_lowercase command_history search_input in
  mkApp false command_history (first_or_none filtered) search_input filtered None.

(** [App::update_filter] *)
Definition update_filter (app : App) : App :=
  let filtered := filter_commands to_lowercase (command_history app) (search_input app) in
  mkApp (should_quit app) (command_history app) (first_or_none filtered)
    (search_input app) filtered (selected_command app).

(** [App::handle_key]; [None] is the panic of [self.command_history[cmd_idx]]
    on an index out of bounds. The match arms are tried in source order:
    [Char('q') | Esc], [Down | Char('j')], [Up | Char('k')], [Char(c)],
    [Backspace], [Enter], [_]. *)
Definition handle_key (app : App) (key : KeyCode) : option App :=
  match key with
  | KEsc => Some (set_quit app)
  | KDown => Some (select_next app)
  | KUp => Some (select_previous app)
  | KChar c =>
      if N.eqb c ch_q then Some (set_quit app)
      else if N.eqb c ch_j then Some (select_next app)
      else if N.eqb c ch_k then Some (select_previous app)
      else Some (update_filter (set_search app (search_input app ++ [c])))
  | KBackspace => Some (update_filter (set_search app (removelast (search_input app))))
  | KEnter =>
      match selected app with
      | Some sel =>
          match filtered_commands app !! sel with
          | Some cmd_idx =>
              match command_history app !! cmd_idx with
              | Some cmd => Some (set_quit (set_selected_command app (Some cmd)))
              | None => None
              end
          | None => Some (set_quit app)
          end
      | None => Some (set_quit app)
      end
  | KOther => Some app
  end.

(** States reached from [st0] by any sequence of key events. *)
Inductive reach (st0 : App) : App -> Prop :=
| reach_refl : reach st0 st0
| reach_step (st : App) (k : KeyCode) (st' : App) :
    reach st0 st -> handle_key st k = Some st' -> reach st0 st'.

(** Events read by the loop of [main]; non-key events are skipped. *)
Inductive Event :=
| EKey (k : KeyCode)
| ENonKey.

Inductive LoopResult :=
| Running (app : App)     (* events exhausted, waiting for the next one *)
| Finished (app : App)    (* [should_quit] became true: [break] *)
| Panicked.

(** The [loop] of [main] (drawing left out). *)
Fixpoint event_loop (app : App) (events : list Event) : LoopResult :=
  match events with
  | [] => Running app
  | ev :: events' =>
      let next := match ev with EKey k => handle_key app k | ENonKey => Some app end in
      match next with
      | None => Panicked
      | Some app' => if should_quit app' then Finished app' else event_loop app' events'
      end
  end.


(** The engine invariant: the view is the filter of the history by the
    query, and the cursor is [None] on an empty view and in range on a
    non-empty one. *)
Definition app_inv (st : App) : Prop :=
  filtered_commands st = filter_commands to_lowercase (command_history st) (search_input st) /\
  (filtered_commands st = [] -> selected st = None) /\
  (filtered_commands st <> [] ->
     exists i, selected st = Some i /\ i < length (filtered_commands st)).

Lemma first_or_none_inv (filtered : list nat) :
  (filtered = [] -> first_or_none filtered = None) /\
  (filtered <> [] -> exists i, first_or_none filtered = Some i /\ i < length filtered).
Proof.
  destruct filtered as [|x f]; split; intros H; cbn [first_or_none] in *; try congruence.
  exists 0. split; [reflexivity|cbn; lia].
Qed.

Lemma app_new_inv (H args : list rstring) : app_inv (app_new H args).
Proof.
  unfold app_inv, app_new; cbn [filtered_commands command_history search_input selected].
  split; [reflexivity|apply first_or_none_inv].
Qed.

Lemma update_filter_inv (st : App) : app_inv (update_filter st).
Proof.
  unfold app_inv, update_filter; cbn [filtered_commands command_history search_input selected].
  split; [reflexivity|apply first_or_none_inv].
Qed.

Lemma set_quit_inv (st : App) : app_inv st -> app_inv (set_quit st).
Proof. unfold app_inv, set_quit; cbn. tauto. Qed.

Lemma select_next_inv (st : App) : app_inv st -> app_inv (select_next st).
Proof.
  unfold select_next. destruct (filtered_commands st) as [|x f] eqn:Hf; [tauto|].
  intros [Heq [_ Hsel]]. unfold app_inv, set_selected; cbn.
  rewrite Hf in Heq |- *. split; [exact Heq|]. split; [discriminate|].
  intros _. cbn [length].
  destruct (selected st) as [i|];
    [destruct (length f - 0 <=? i) eqn:Hle; [|apply Nat.leb_gt in Hle]|];
    eexists; (split; [reflexivity|lia]).
Qed.

Lemma select_previous_inv (st : App) : app_inv st -> app_inv (select_previous st).
Proof.
  unfold select_previous. destruct (filtered_commands st) as [|x f] eqn:Hf; [tauto|].
  intros [Heq [_ Hsel]]. unfold app_inv, set_selected; cbn.
  rewrite Hf in Heq, Hsel |- *. split; [exact Heq|]. split; [discriminate|].
  intros _. cbn [length].
  destruct (selected st) as [i|] eqn:Hs.
  - destruct Hsel as [j [Hj Hlt]]; [discriminate|]. injection Hj as <-.
    cbn [length] in Hlt.
    destruct (i =? 0); eexists; (split; [reflexivity|lia]).
  - eexists; (split; [reflexivity|lia]).
Qed.

Lemma handle_key_inv (st st' : App) (k : KeyCode) :
  app_inv st -> handle_key st k = Some st' -> app_inv st'.
Proof.
  intros Hinv Hk. destruct k as [c| | | | | |]; cbn [handle_key] in Hk.
  - destruct (N.eqb c ch_q); [injection Hk as <-; apply set_quit_inv, Hinv|].
    destruct (N.eqb c ch_j); [injection Hk as <-; apply select_next_inv, Hinv|].
    destruct (N.eqb c ch_k); [injection Hk as <-; apply select_previous_inv, Hinv|].
    injection Hk as <-; apply update_filter_inv.
  - injection Hk as <-; apply set_quit_inv, Hinv.
  - injection Hk as <-; apply select_next_inv, Hinv.
  - injection Hk as <-; apply select_previous_inv, Hinv.
  - injection Hk as <-; apply update_filter_inv.
  - destruct (selected st) as [sel|]; [|injection Hk as <-; apply set_quit_inv, Hinv].
    destruct (filtered_commands st !! sel) as [idx|];
      [|injection Hk as <-; apply set_quit_inv, Hinv].
    destruct (command_history st !! idx) as [cmd|]; [|discriminate].
    injection Hk as <-. unfold app_inv, set_quit, set_selected_command; cbn. exact Hinv.
  - injection Hk as <-; exact Hinv.
Qed.

Lemma reach_inv (st0 st : App) : app_inv st0 -> reach st0 st -> app_inv st.
Proof.
  intros H0 Hr. induction Hr as [|st k st' Hr IH Hk]; [exact H0|].
  exact (handle_key_inv st st' k IH Hk).
Qed.

(** Claim C5: in every state reachable from [App::new] by any sequence
    of key events the cursor is [None] exactly on an empty filtered view
    and lies in [0, len) on a non-empty one; after a typed character
    (any character but [q], [j], [k]) or a Backspace the cursor is [0]
    if the recomputed view is non-empty and [None] otherwise. *)
Theorem selection_cursor_invariant (H args : list rstring) (st : App) :
  reach (app_new H args) st ->
  (filtered_commands st <> [] ->
     exists i, selected st = Some i /\ i < length (filtered_commands st)) /\
  (filtered_commands st = [] -> selected st = None) /\
  (forall (c : rchar) (st' : App), c <> ch_q -> c <> ch_j -> c <> ch_k ->
     handle_key st (KChar c) = Some st' ->
     selected st' = first_or_none (filtered_commands st')) /\
  (forall st' : App, handle_key st KBackspace = Some st' ->
     selected st' = first_or_none (filtered_commands st')).
Proof.
  intros Hr. pose proof (reach_inv _ _ (app_new_inv H args) Hr) as [_ [Hnil Hsel]].
  split; [exact Hsel|]. split; [exact Hnil|]. split.
  - intros c st' Hq Hj Hk' Hk. cbn [handle_key] in Hk.
    rewrite (proj2 (N.eqb_neq c ch_q) Hq), (proj2 (N.eqb_neq c ch_j) Hj),
      (proj2 (N.eqb_neq c ch_k) Hk') in Hk.
    injection Hk as <-. reflexivity.
  - intros st' Hk. cbn [handle_key] in Hk. injection Hk as <-. reflexivity.
Qed.

(** Claim C6: on a filtered view of length [n > 0] with the cursor at
    [i < n], MoveDown ([Down]) goes to [0] from [n-1] and to [i+1]
    otherwise, MoveUp ([Up]) goes to [n-1] from [0] and to [i-1]
    otherwise; on an empty filtered view both leave the state as it is. *)
Theorem select_wraps (st st_empty : App) (i : nat) :
  selected st = Some i -> i < length (filtered_commands st) ->
  filtered_commands st_empty = [] ->
  handle_key st KDown =
    Some (set_selected st (Some (if i =? length (filtered_commands st) - 1 then 0 else i + 1))) /\
  handle_key st KUp =
    Some (set_selected st (Some (if i =? 0 then length (filtered_commands st) - 1 else i - 1))) /\
  handle_key st_empty KDown = Some st_empty /\
  handle_key st_empty KUp = Some st_empty.
Proof.
  intros Hs Hlt He. cbn [handle_key]. unfold select_next, select_previous.
  rewrite He. split; [|split; [|split; reflexivity]].
  - destruct (filtered_commands st) as [|x f] eqn:Hf; [cbn in Hlt; lia|].
    rewrite Hs. destruct (Nat.eqb_spec i (length (x :: f) - 1)) as [Heq|Hne].
    + rewrite (proj2 (Nat.leb_le _ _)) by lia. reflexivity.
    + rewrite (proj2 (Nat.leb_gt _ _)) by (cbn [length] in *; lia). reflexivity.
  - destruct (filtered_commands st) as [|x f] eqn:Hf; [cbn in Hlt; lia|].
    rewrite Hs. reflexivity.
Qed.

Lemma handle_key_keeps_command (st st' : App) (k : KeyCode) :
  handle_key st k = Some st' -> should_quit st' = false ->
  selected_command st' = selected_command st.
Proof.
  intros Hk Hq. destruct k as [c| | | | | |]; cbn [handle_key] in Hk.
  - destruct (N.eqb c ch_q); [injection Hk as <-; discriminate|].
    destruct (N.eqb c ch_j);
      [injection Hk as <-; unfold select_next; destruct (filtered_commands st); reflexivity|].
    destruct (N.eqb c ch_k);
      [injection Hk as <-; unfold select_previous; destruct (filtered_commands st); reflexivity|].
    injection Hk as <-; reflexivity.
  - injection Hk as <-; discriminate.
  - injection Hk as <-; unfold select_next; destruct (filtered_commands st); reflexivity.
  - injection Hk as <-; unfold select_previous; destruct (filtered_commands st); reflexivity.
  - injection Hk as <-; reflexivity.
  - destruct (selected st) as [sel|]; [|injection Hk as <-; discriminate].
    destruct (filtered_commands st !! sel) as [idx|]; [|injection Hk as <-; discriminate].
    destruct (command_history st !! idx); [injection Hk as <-; discriminate|discriminate].
  - injection Hk as <-; reflexivity.
Qed.

(** A state the loop is waiting in is reachable, still active, and has
    recorded no selection. *)
Lemma event_loop_running (st0 app st : App) (events : list Event) :
  reach st0 app -> should_quit app = false -> selected_command app = None ->
  event_loop app events = Running st ->
  reach st0 st /\ should_quit st = false /\ selected_command st = None.
Proof.
  revert app; induction events as [|ev events IH]; intros app Hr Hq Hc Hl.
  - cbn in Hl. injection Hl as <-. auto.
  - cbn [event_loop] in Hl. destruct ev as [k|].
    + destruct (handle_key app k) as [app'|] eqn:Hk; [|discriminate].
      destruct (should_quit app') eqn:Hq'; [discriminate|].
      apply (IH app'); [exact (reach_step _ _ _ _ Hr Hk)|exact Hq'| |exact Hl].
      rewrite (handle_key_keeps_command _ _ _ Hk Hq'). exact Hc.
    + rewrite Hq in Hl. exact (IH app Hr Hq Hc Hl).
Qed.

(** Claim C7: in any state the event loop waits in, a Quit key ([Esc] or
    [q]) ends the session with no selection and [main] exits with status
    0 without launching anything; Confirm ([Enter]) ends the session,
    and when the cursor holds [i] it records the history entry at index
    [filtered_commands[i]] and [main] launches it, while with no cursor
    it records nothing and [main] exits with status 0. *)
Theorem quit_confirm_outcome (H args : list rstring) (events : list Event) (st : App) :
  event_loop (app_new H args) events = Running st ->
  (forall st1 : App, handle_key st KEsc = Some st1 \/ handle_key st (KChar ch_q) = Some st1 ->
     should_quit st1 = true /\ selected_command st1 = None /\ after_loop st1 = Exit 0) /\
  (exists st2 : App, handle_key st KEnter = Some st2 /\ should_quit st2 = true /\
     (forall i : nat, selected st = Some i ->
        exists (idx : nat) (cmd : rstring),
          filtered_commands st !! i = Some idx /\ command_history st !! idx = Some cmd /\
          selected_command st2 = Some cmd /\
          after_loop st2 = Exec (fst (parse_command_string cmd)) (snd (parse_command_string cmd))) /\
     (selected st = None -> selected_command st2 = None /\ after_loop st2 = Exit 0)).
Proof.
  intros Hl.
  destruct (event_loop_running (app_new H args) (app_new H args) st events
              (reach_refl _) eq_refl eq_refl Hl) as [Hr [_ Hc]].
  destruct (reach_inv _ _ (app_new_inv H args) Hr) as [Heq [Hnil Hsel]].
  split.
  - intros st1 [Hk|Hk]; cbn [handle_key] in Hk; injection Hk as <-;
      unfold after_loop, set_quit; cbn; rewrite Hc; auto.
  - cbn [handle_key]. destruct (selected st) as [i|] eqn:Hs.
    + assert (Hi : i < length (filtered_commands st)).
      { destruct (filtered_commands st) as [|x f] eqn:Hf.
        - pose proof (Hnil eq_refl). congruence.
        - destruct Hsel as [j [Hj Hlt]]; [discriminate|].
          assert (i = j) by congruence. subst j. exact Hlt. }
      destruct (lookup_lt_is_Some_2 _ _ Hi) as [idx Hidx]. rewrite Hidx.
      assert (Hin : idx < length (command_history st)).
      { apply (filter_commands_in_bounds to_lowercase _ (search_input st)).
        rewrite <- Heq. apply list_elem_of_In. eapply list_elem_of_lookup_2. exact Hidx. }
      destruct (lookup_lt_is_Some_2 _ _ Hin) as [cmd Hcmd]. rewrite Hcmd.
      eexists. split; [reflexivity|]. split; [reflexivity|]. split; [|discriminate].
      intros i' Hi'. injection Hi' as <-. exists idx, cmd.
      split; [exact Hidx|]. split; [exact Hcmd|]. split; [reflexivity|].
      unfold after_loop; cbn. destruct (parse_command_string cmd); reflexivity.
    + eexists. split; [reflexivity|]. split; [reflexivity|]. split; [discriminate|].
      intros _. unfold after_loop, set_quit; cbn. rewrite Hc. auto.
Qed.

(** Claim C9 (amended): in a reachable state with an empty query,
    Backspace raises no error and leaves everything unchanged except the
    cursor, which is reset to [0] (or [None] on an empty view) as after
    any recomputation of the filtered view. *)
Theorem backspace_empty_query_resets_cursor (H args : list rstring) (st : App) :
  reach (app_new H args) st -> search_input st = [] ->
  handle_key st KBackspace = Some (set_selected st (first_or_none (filtered_commands st))).
Proof.
  intros Hr Hs. destruct (reach_inv _ _ (app_new_inv H args) Hr) as [Heq _].
  cbn [handle_key]. unfold update_filter, set_search, set_selected.
  cbn [command_history search_input should_quit selected_command].
  rewrite Hs in Heq |- *. cbn [removelast]. rewrite <- Heq, <- Hs. reflexivity.
Qed.

Lemma select_next_search (st : App) : search_input (select_next st) = search_input st.
Proof. unfold select_next. destruct (filtered_commands st); reflexivity. Qed.

Lemma select_previous_search (st : App) : search_input (select_previous st) = search_input st.
Proof. unfold select_previous. destruct (filtered_commands st); reflexivity. Qed.

(** How a key changes the query: not at all, by appending a character
    other than [q], [j] and [k], or by a Backspace. *)
Lemma handle_key_search (st st' : App) (k : KeyCode) :
  handle_key st k = Some st' ->
  search_input st' = search_input st \/
  (exists c, c <> ch_q /\ c <> ch_j /\ c <> ch_k /\ search_input st' = search_input st ++ [c]) \/
  search_input st' = removelast (search_input st).
Proof.
  intros Hk. destruct k as [c| | | | | |]; cbn [handle_key] in Hk.
  - destruct (N.eqb_spec c ch_q); [injection Hk as <-; left; reflexivity|].
    destruct (N.eqb_spec c ch_j);
      [injection Hk as <-; left; apply select_next_search|].
    destruct (N.eqb_spec c ch_k);
      [injection Hk as <-; left; apply select_previous_search|].
    injection Hk as <-. right; left. exists c. auto.
  - injection Hk as <-; left; reflexivity.
  - injection Hk as <-; left; apply select_next_search.
  - injection Hk as <-; left; apply select_previous_search.
  - injection Hk as <-; right; right; reflexivity.
  - left. destruct (selected st) as [sel|]; [|injection Hk as <-; reflexivity].
    destruct (filtered_commands st !! sel) as [idx|]; [|injection Hk as <-; reflexivity].
    destruct (command_history st !! idx); [injection Hk as <-; reflexivity|discriminate].
  - injection Hk as <-; left; reflexivity.
Qed.

Lemma removelast_prefix (l : rstring) : removelast l `prefix_of` l.
Proof.
  destruct l as [|a l]; [exists []; reflexivity|].
  exists [List.last (a :: l) 0%N]. apply app_removelast_last. discriminate.
Qed.

(** Claim C10: the character keys [q], [j] and [k] never reach the
    query: [q] acts as [Esc] (quit, selection untouched), [j] as [Down]
    and [k] as [Up]; hence every query reachable from [App::new] is a
    prefix of the seed query followed by typed characters none of which
    is [q], [j] or [k]. *)
Theorem qjk_keys_not_typed (H args : list rstring) (st : App) :
  reach (app_new H args) st ->
  handle_key st (KChar ch_q) = Some (set_quit st) /\ handle_key st KEsc = Some (set_quit st) /\
  handle_key st (KChar ch_j) = Some (select_next st) /\ handle_key st KDown = Some (select_next st) /\
  handle_key st (KChar ch_k) = Some (select_previous st) /\
  handle_key st KUp = Some (select_previous st) /\
  (exists seed typed : rstring,
     seed `prefix_of` join [ch_space] args /\ search_input st = seed ++ typed /\
     Forall (fun c => c <> ch_q /\ c <> ch_j /\ c <> ch_k) typed).
Proof.
  intros Hr. do 6 (split; [reflexivity|]).
  induction Hr as [|st k st' Hr IH Hk].
  - exists (join [ch_space] args), []. split; [reflexivity|].
    split; [cbn; rewrite app_nil_r; reflexivity|constructor].
  - destruct IH as [seed [typed [Hpre [Hs Hall]]]].
    destruct (handle_key_search _ _ _ Hk) as [Hq|[[c [Hcq [Hcj [Hck Hq]]]]|Hq]].
    + exists seed, typed. rewrite Hq. auto.
    + exists seed, (typed ++ [c]). rewrite Hq, Hs, app_assoc. split; [exact Hpre|].
      split; [reflexivity|]. apply Forall_app. split; [exact Hall|]. repeat constructor; auto.
    + rewrite Hq, Hs. destruct typed as [|t typed] using rev_ind.
      * exists (removelast seed), []. rewrite !app_nil_r. split; [|split; [reflexivity|constructor]].
        destruct (removelast_prefix seed) as [r Hr1]. destruct Hpre as [r' Hr2].
        exists (r ++ r'). rewrite Hr2, Hr1 at 1. rewrite app_assoc. reflexivity.
      * exists seed, typed. rewrite app_assoc, removelast_last. split; [exact Hpre|].
        split; [reflexivity|]. apply Forall_app in Hall. tauto.
Qed.

End Engine.

(** ** Concrete runs *)

(** The history of the spec's first scenario, most recent first. *)
Definition demo_history : list rstring := [rs "ls"; rs "ls -la"; rs "cd /tmp"].

(** Seeded with [ls]: the view is [[0; 1]] and the cursor [0]. *)
Definition demo_app : App := app_new ascii_to_lowercase demo_history [rs "ls"].
Definition demo_app_down : App := select_next demo_app.

(** No seed: the view is [[0; 1; 2]]; one [Down] moves the cursor to [1]. *)
Definition demo_app0 : App := app_new ascii_to_lowercase demo_history [].
Definition demo_app0_down : App := select_next demo_app0.

Definition demo_app_empty : App := app_new ascii_to_lowercase [] [].

Lemma demo_app_down_reach : reach ascii_to_lowercase demo_app demo_app_down.
Proof. eapply (reach_step _ _ _ KDown); [apply reach_refl|reflexivity]. Qed.

Lemma demo_app0_down_reach : reach ascii_to_lowercase demo_app0 demo_app0_down.
Proof. eapply (reach_step _ _ _ KDown); [apply reach_refl|reflexivity]. Qed.

Lemma selection_cursor_invariant_witness :
  reach ascii_to_lowercase demo_app demo_app_down /\
  filtered_commands demo_app_down <> [] /\
  exists i, selected demo_app_down = Some i /\ i < length (filtered_commands demo_app_down).
Proof.
  split; [exact demo_app_down_reach|].
  split; [vm_compute; discriminate|].
  apply (selection_cursor_invariant ascii_to_lowercase demo_history [rs "ls"] demo_app_down
           demo_app_down_reach).
  vm_compute; discriminate.
Defined.

Lemma select_wraps_witness :
  selected demo_app_down = Some 1 /\ 1 < length (filtered_commands demo_app_down) /\
  filtered_commands demo_app_empty = [] /\
  handle_key ascii_to_lowercase demo_app_down KDown = Some (set_selected demo_app_down (Some 0)) /\
  handle_key ascii_to_lowercase demo_app_down KUp = Some (set_selected demo_app_down (Some 0)).
Proof.
  assert (Hs : selected demo_app_down = Some 1) by reflexivity.
  assert (Hl : 1 < length (filtered_commands demo_app_down)) by (vm_compute; lia).
  assert (He : filtered_commands demo_app_empty = []) by reflexivity.
  destruct (select_wraps ascii_to_lowercase demo_app_down demo_app_empty 1 Hs Hl He)
    as [Hd [Hu _]].
  split; [exact Hs|]. split; [exact Hl|]. split; [exact He|].
  split; [rewrite Hd|rewrite Hu]; reflexivity.
Defined.

Lemma quit_confirm_outcome_witness :
  event_loop ascii_to_lowercase demo_app [EKey KDown] = Running demo_app_down /\
  (exists st2, handle_key ascii_to_lowercase demo_app_down KEnter = Some st2 /\
     should_quit st2 = true) /\
  after_loop (set_quit (set_selected_command demo_app_down (Some (rs "ls -la")))) =
    Exec (rs "ls") [rs "-la"].
Proof.
  assert (Hl : event_loop ascii_to_lowercase demo_app [EKey KDown] = Running demo_app_down)
    by reflexivity.
  split; [exact Hl|]. split; [|vm_compute; reflexivity].
  destruct (quit_confirm_outcome ascii_to_lowercase demo_history [rs "ls"] [EKey KDown]
              demo_app_down Hl) as [_ [st2 [Hk [Hq _]]]].
  exists st2. split; [exact Hk|exact Hq].
Defined.

(** Claim C9 (counterexample): after one [Down] on the unseeded history
    the query is empty, yet Backspace changes the state: it moves the
    cursor from [1] back to [0]. *)
Lemma backspace_empty_query_not_noop :
  reach ascii_to_lowercase demo_app0 demo_app0_down /\
  search_input demo_app0_down = [] /\
  selected demo_app0_down = Some 1 /\
  handle_key ascii_to_lowercase demo_app0_down KBackspace =
    Some (set_selected demo_app0_down (Some 0)) /\
  handle_key ascii_to_lowercase demo_app0_down KBackspace <> Some demo_app0_down.
Proof.
  split; [exact demo_app0_down_reach|].
  split; [reflexivity|]. split; [reflexivity|]. split; [vm_compute; reflexivity|].
  vm_compute. discriminate.
Qed.

Lemma backspace_empty_query_resets_cursor_witness :
  reach ascii_to_lowercase demo_app0 demo_app0_down /\ search_input demo_app0_down = [] /\
  handle_key ascii_to_lowercase demo_app0_down KBackspace =
    Some (set_selected demo_app0_down (first_or_none (filtered_commands demo_app0_down))).
Proof.
  assert (Hs : search_input demo_app0_down = []) by reflexivity.
  split; [exact demo_app0_down_reach|]. split; [exact Hs|].
  exact (backspace_empty_query_resets_cursor ascii_to_lowercase demo_history []
           demo_app0_down demo_app0_down_reach Hs).
Defined.

Lemma qjk_keys_not_typed_witness :
  reach ascii_to_lowercase demo_app demo_app_down /\
  handle_key ascii_to_lowercase demo_app_down (KChar ch_q) = Some (set_quit demo_app_down) /\
  exists seed typed : rstring,
    seed `prefix_of` join [ch_space] [rs "ls"] /\ search_input demo_app_down = seed ++ typed /\
    Forall (fun c => c <> ch_q /\ c <> ch_j /\ c <> ch_k) typed.
Proof.
  split; [exact demo_app_down_reach|].
  destruct (qjk_keys_not_typed ascii_to_lowercase demo_history [rs "ls"] demo_app_down
              demo_app_down_reach) as [Hq [_ [_ [_ [_ [_ Hx]]]]]].
  split; [exact Hq|exact Hx].
Defined.

(** ** Reading the history file: [str::lines] and the candidate paths *)

Definition ch_lf : N := 10.   (* newline *)
Definition ch_cr : N := 13.   (* carriage return *)

(** [str::split_inclusive('\n')]: pieces end just after each newline; a
    trailing empty piece is not produced. *)
Fixpoint split_inclusive_lf (cur : rstring) (s : rstring) : list rstring :=
  match s with
  | [] => if is_empty cur then [] else [cur]
  | c :: s' =>
      if N.eqb c ch_lf then (cur ++ [c]) :: split_inclusive_lf [] s'
      else split_inclusive_lf (cur ++ [c]) s'
  end.

(** [str::strip_suffix] for a one-character suffix. *)
Definition strip_suffix_char (c : rchar) (s : rstring) : option rstring :=
  match rev s with
  | d :: r => if N.eqb d c then Some (rev r) else None
  | [] => None
  end.

(** The closure of [str::lines]: drop a final [\n], then a [\r] before it. *)
Definition strip_line_ending (piece : rstring) : rstring :=
  match strip_suffix_char ch_lf piece with
  | Some line => match strip_suffix_char ch_cr line with Some l => l | None => line end
  | None => piece
  end.

(** [str::lines] *)
Definition str_lines (content : rstring) : list rstring :=
  map strip_line_ending (split_inclusive_lf [] content).

(** The state of a candidate history file: absent ([exists()] is false),
    present with this (UTF-8 decoded) text, or present but
    [fs::read_to_string] fails (permissions, I/O error, invalid UTF-8). *)
Inductive FileState :=
| Missing
| Contents (text : rstring)
| ReadError.

Inductive LoadResult :=
| Loaded (commands : list rstring)
| LoadErr                        (* the [?] on [read_to_string] *)
| LoadPanic.                     (* [expect("HOME isn't set")] *)

(** [PATHS] *)
Definition PATHS : list rstring := [rs ".bash_history"; rs ".zsh_history"].

(** The [for path in PATHS] loop; [fs] gives the state of [home/name]. *)
Fixpoint load_from (fs : rstring -> FileState) (paths : list rstring) : LoadResult :=
  match paths with
  | [] => Loaded []
  | p :: paths' =>
      match fs p with
      | Missing => load_from fs paths'
      | ReadError => LoadErr
      | Contents content => Loaded (load_lines (str_lines content))
      end
  end.

(** [App::load_history]: [home] is [env::var_os("HOME")], [fs home name]
    the state of the file [name] under [home]. *)
Definition load_history (home : option rstring)
    (fs : rstring -> rstring -> FileState) : LoadResult :=
  match home with
  | None => LoadPanic
  | Some h => load_from (fs h) PATHS
  end.

Lemma split_inclusive_lf_line (l cur rest : rstring) :
  ch_lf ∉ l ->
  split_inclusive_lf cur (l ++ ch_lf :: rest) = (cur ++ l ++ [ch_lf]) :: split_inclusive_lf [] rest.
Proof.
  revert cur; induction l as [|a l IH]; intros cur Hl; cbn [app split_inclusive_lf].
  - rewrite N.eqb_refl. reflexivity.
  - rewrite elem_of_cons in Hl.
    destruct (N.eqb_spec a ch_lf) as [->|_]; [tauto|].
    rewrite IH by tauto. rewrite <- app_assoc. reflexivity.
Qed.

Lemma strip_suffix_char_snoc (c : rchar) (l : rstring) :
  strip_suffix_char c (l ++ [c]) = Some l.
Proof.
  unfold strip_suffix_char. rewrite rev_unit, N.eqb_refl, rev_involutive. reflexivity.
Qed.

Lemma strip_suffix_char_other (c : rchar) (l : rstring) :
  last l <> Some c -> strip_suffix_char c l = None.
Proof.
  destruct l as [|x l'] using rev_ind; intros Hl; [reflexivity|].
  rewrite last_snoc in Hl. unfold strip_suffix_char. rewrite rev_unit.
  destruct (N.eqb_spec x c) as [->|_]; [congruence|reflexivity].
Qed.

(** [str::lines] inverts writing one line per [\n]-terminated (or
    [\r\n]-terminated) record: for lines without a newline that do not
    end in a carriage return, both layouts read back as the same lines. *)
Theorem str_lines_unlines (ls : list rstring) :
  Forall (fun l => (ch_lf ∉ l) /\ last l <> Some ch_cr) ls ->
  str_lines (concat (map (fun l => l ++ [ch_lf]) ls)) = ls /\
  str_lines (concat (map (fun l => l ++ [ch_cr; ch_lf]) ls)) = ls.
Proof.
  unfold str_lines. induction ls as [|l ls IH]; intros Hall; [split; reflexivity|].
  apply Forall_cons in Hall as [[Hlf Hcr] Hall].
  destruct (IH Hall) as [IH1 IH2].
  cbn [map concat]. split.
  - rewrite <- app_assoc. cbn [app].
    rewrite split_inclusive_lf_line by exact Hlf. cbn [map app].
    rewrite IH1. unfold strip_line_ending.
    rewrite strip_suffix_char_snoc, strip_suffix_char_other by exact Hcr. reflexivity.
  - replace ((l ++ [ch_cr; ch_lf]) ++ concat (map (fun l0 => l0 ++ [ch_cr; ch_lf]) ls))
      with ((l ++ [ch_cr]) ++ ch_lf :: concat (map (fun l0 => l0 ++ [ch_cr; ch_lf]) ls))
      by (rewrite <- !app_assoc; reflexivity).
    rewrite split_inclusive_lf_line.
    + cbn [map app]. rewrite IH2. unfold strip_line_ending.
      rewrite strip_suffix_char_snoc, strip_suffix_char_snoc. reflexivity.
    + rewrite elem_of_app, list_elem_of_singleton. intros [H|H]; [tauto|discriminate].
Qed.

(** Which file [App::load_history] reads: an unset [HOME] panics; when
    [.bash_history] exists the result does not depend on [.zsh_history]
    at all (a failed read of it is an error, with no fall back to zsh);
    when neither file exists the history is empty. *)
Theorem load_history_sources :
  (forall fs, load_history None fs = LoadPanic) /\
  (forall h fs1 fs2,
     fs1 h (rs ".bash_history") = fs2 h (rs ".bash_history") ->
     fs1 h (rs ".bash_history") <> Missing ->
     load_history (Some h) fs1 = load_history (Some h) fs2) /\
  (forall h fs1 fs2,
     fs1 h (rs ".bash_history") = Missing -> fs2 h (rs ".bash_history") = Missing ->
     fs1 h (rs ".zsh_history") = fs2 h (rs ".zsh_history") ->
     load_history (Some h) fs1 = load_history (Some h) fs2) /\
  (forall h fs,
     fs h (rs ".bash_history") = Missing -> fs h (rs ".zsh_history") = Missing ->
     load_history (Some h) fs = Loaded []).
Proof.
  split; [reflexivity|]. split; [|split].
  - intros h fs1 fs2 Heq Hex. unfold load_history, PATHS. cbn [load_from].
    rewrite <- Heq. destruct (fs1 h (rs ".bash_history")); congruence.
  - intros h fs1 fs2 H1 H2 Hz. unfold load_history, PATHS. cbn [load_from].
    rewrite H1, H2, Hz. reflexivity.
  - intros h fs H1 H2. unfold load_history, PATHS. cbn [load_from].
    rewrite H1, H2. reflexivity.
Qed.

(** Every history [App::load_history] returns has pairwise distinct
    entries, none of them blank. *)
Theorem load_history_distinct_nonblank (home : option rstring)
    (fs : rstring -> rstring -> FileState) (commands : list rstring) :
  load_history home fs = Loaded commands ->
  NoDup commands /\ Forall (fun cmd => trim cmd <> []) commands.
Proof.
  unfold load_history. destruct home as [h|]; [|discriminate].
  generalize PATHS as paths. induction paths as [|p paths IH]; cbn [load_from].
  - intros H. injection H as <-. split; constructor.
  - destruct (fs h p) as [|content|]; [exact IH| |discriminate].
    intros H. injection H as <-. unfold load_lines. split; [apply retain_seen_nodup|].
    apply Forall_forall. intros cmd Hin.
    apply retain_seen_elem in Hin as [Hin _].
    rewrite list_elem_of_In, <- in_rev in Hin. unfold clean_lines in Hin.
    apply filter_In in Hin as [_ Hne].
    destruct (trim cmd); [discriminate|congruence].
Qed.

(** ** Further properties of the engine *)

Lemma StronglySorted_filter {A} (R : A -> A -> Prop) (f : A -> bool) (l : list A) :
  StronglySorted R l -> StronglySorted R (List.filter f l).
Proof.
  induction 1 as [|a l Hs IH Hall]; cbn; [constructor|].
  destruct (f a); [|exact IH].
  constructor; [exact IH|].
  apply Forall_forall. intros x Hx. rewrite list_elem_of_In, filter_In in Hx.
  rewrite Forall_forall in Hall. apply Hall. apply list_elem_of_In. tauto.
Qed.

Lemma StronglySorted_seq (k n : nat) : StronglySorted lt (seq k n).
Proof.
  revert k; induction n as [|n IH]; intros k; cbn; constructor; [apply IH|].
  apply Forall_forall. intros x Hx. rewrite list_elem_of_In, in_seq in Hx. lia.
Qed.

Lemma filter_sublist_of {A} (f g : A -> bool) (l : list A) :
  (forall x, f x = true -> g x = true) ->
  List.filter f l `sublist_of` List.filter g l.
Proof.
  intros Hfg. induction l as [|a l IH]; cbn; [constructor|].
  destruct (f a) eqn:Hf.
  - rewrite (Hfg a Hf). apply sublist_skip, IH.
  - destruct (g a); [apply sublist_cons, IH|exact IH].
Qed.

Lemma list_filter_sublist_of {A} (f : A -> bool) (l : list A) :
  List.filter f l `sublist_of` l.
Proof.
  induction l as [|a l IH]; cbn; [constructor|].
  destruct (f a); [apply sublist_skip, IH|apply sublist_cons, IH].
Qed.

Lemma is_prefix_app (x y h : rstring) : is_prefix (x ++ y) h = true -> is_prefix x h = true.
Proof.
  revert h; induction x as [|a x IH]; intros h; [reflexivity|].
  destruct h as [|b h]; cbn; [discriminate|].
  intros H. apply andb_prop in H as [Hab Hp]. rewrite Hab. apply IH, Hp.
Qed.

Lemma contains_app (h x y : rstring) : contains h (x ++ y) = true -> contains h x = true.
Proof.
  induction h as [|a h IH]; cbn [contains]; intros H.
  - apply orb_prop in H as [H|H]; [|discriminate].
    rewrite (is_prefix_app _ _ _ H). reflexivity.
  - apply orb_prop in H as [H|H].
    + rewrite (is_prefix_app _ _ _ H). reflexivity.
    + rewrite (IH H), orb_true_r. reflexivity.
Qed.

Section MoreEngine.

Variable to_lowercase : rstring -> rstring.

Lemma filter_commands_as_filter (commands : list rstring) (query : rstring) :
  filter_commands to_lowercase commands query =
    if is_empty query then seq 0 (length commands)
    else List.filter (entry_matches to_lowercase commands query) (seq 0 (length commands)).
Proof.
  unfold filter_commands, enumerate.
  destruct (is_empty query); [reflexivity|].
  rewrite (enumerate_filter_from (fun cmd => contains (to_lowercase cmd) (to_lowercase query))).
  apply List.filter_ext_in; intros i _.
  unfold entry_matches; rewrite Nat.sub_0_r; reflexivity.
Qed.

Lemma filter_commands_sorted_bounds (commands : list rstring) (query : rstring) :
  StronglySorted lt (filter_commands to_lowercase commands query) /\
  Forall (fun i => i < length commands) (filter_commands to_lowercase commands query) /\
  length (filter_commands to_lowercase commands query) <= length commands.
Proof.
  rewrite filter_commands_as_filter.
  destruct (is_empty query).
  - split; [apply StronglySorted_seq|]. split; [|rewrite length_seq; lia].
    apply Forall_forall. intros i Hi. rewrite list_elem_of_In, in_seq in Hi. lia.
  - split; [apply StronglySorted_filter, StronglySorted_seq|]. split.
    + apply Forall_forall. intros i Hi. rewrite list_elem_of_In, filter_In, in_seq in Hi. lia.
    + rewrite <- (length_seq (length commands) 0) at 2. apply filter_length_le.
Qed.

(** The filtered view lists history indices in strictly increasing
    order (no entry twice), all in range, and never more of them than
    the history has: the status bar's first count never exceeds the
    second. *)
Theorem filter_commands_sorted_bounded (commands : list rstring) (query : rstring) :
  StronglySorted lt (filter_commands to_lowercase commands query) /\
  Forall (fun i => i < length commands) (filter_commands to_lowercase commands query) /\
  length (filter_commands to_lowercase commands query) <= length commands.
Proof. apply filter_commands_sorted_bounds. Qed.

(** Typing one more character only narrows the filtered view (it becomes
    a subsequence of the previous one), provided lowercasing the longer
    query extends the lowercased shorter one, as it does character by
    character outside the context-dependent final sigma. *)
Theorem filter_commands_narrows (commands : list rstring) (query : rstring) (c : rchar) :
  (exists s, to_lowercase (query ++ [c]) = to_lowercase query ++ s) ->
  filter_commands to_lowercase commands (query ++ [c]) `sublist_of`
    filter_commands to_lowercase commands query.
Proof.
  intros [s Hs]. rewrite !filter_commands_as_filter.
  replace (is_empty (query ++ [c])) with false by (destruct query; reflexivity).
  destruct (is_empty query).
  - apply list_filter_sublist_of.
  - apply filter_sublist_of. intros i. unfold entry_matches.
    destruct (commands !! i); [|discriminate].
    rewrite Hs. apply contains_app.
Qed.

(** [App::render_command_list]: the rows [self.command_history[idx]] for
    the filtered indices; [None] is the panic of an index out of range. *)
Definition render_items (app : App) : option (list rstring) :=
  mapM (fun idx => command_history app !! idx) (filtered_commands app).

(** The two numbers of the status line ["{} / {} commands"] in [App::render]. *)
Definition status_counts (app : App) : nat * nat :=
  (length (filtered_commands app), length (command_history app)).

Lemma mapM_lookup_in_range (l : list rstring) (idxs : list nat) :
  Forall (fun i => i < length l) idxs ->
  exists items, mapM (fun i => l !! i) idxs = Some items /\ length items = length idxs.
Proof.
  induction idxs as [|i idxs IH]; intros Hall; [exists []; split; reflexivity|].
  apply Forall_cons in Hall as [Hi Hall].
  destruct (IH Hall) as [items [Hm Hl]].
  destruct (lookup_lt_is_Some_2 _ _ Hi) as [x Hx].
  exists (x :: items). cbn. rewrite Hx, Hm. split; [reflexivity|cbn; lia].
Qed.

Lemma handle_key_history (st st' : App) (k : KeyCode) :
  handle_key to_lowercase st k = Some st' -> command_history st' = command_history st.
Proof.
  intros Hk. destruct k as [c| | | | | |]; cbn [handle_key] in Hk.
  - destruct (N.eqb c ch_q); [injection Hk as <-; reflexivity|].
    destruct (N.eqb c ch_j);
      [injection Hk as <-; unfold select_next; destruct (filtered_commands st); reflexivity|].
    destruct (N.eqb c ch_k);
      [injection Hk as <-; unfold select_previous; destruct (filtered_commands st); reflexivity|].
    injection Hk as <-; reflexivity.
  - injection Hk as <-; reflexivity.
  - injection Hk as <-; unfold select_next; destruct (filtered_commands st); reflexivity.
  - injection Hk as <-; unfold select_previous; destruct (filtered_commands st); reflexivity.
  - injection Hk as <-; reflexivity.
  - destruct (selected st) as [sel|]; [|injection Hk as <-; reflexivity].
    destruct (filtered_commands st !! sel) as [idx|]; [|injection Hk as <-; reflexivity].
    destruct (command_history st !! idx); [injection Hk as <-; reflexivity|discriminate].
  - injection Hk as <-; reflexivity.
Qed.

Lemma reach_history (st0 st : App) :
  reach to_lowercase st0 st -> command_history st = command_history st0.
Proof.
  induction 1 as [|st k st' _ IH Hk]; [reflexivity|].
  rewrite (handle_key_history _ _ _ Hk). exact IH.
Qed.

Lemma inv_filtered_in_range (st : App) :
  app_inv to_lowercase st ->
  Forall (fun i => i < length (command_history st)) (filtered_commands st).
Proof.
  intros [Heq _]. apply Forall_forall. intros i Hi. rewrite Heq in Hi.
  apply (filter_commands_in_bounds to_lowercase _ (search_input st)).
  apply list_elem_of_In. exact Hi.
Qed.

(** In every state reachable from [App::new] the history is the loaded
    one, rendering the list indexes the history only in range and has a
    row for the highlighted cursor, the status line's filtered count is
    at most the total, and no key makes [handle_key] panic. *)
Theorem reachable_render_safe (H args : list rstring) (st : App) :
  reach to_lowercase (app_new to_lowercase H args) st ->
  command_history st = H /\
  (exists items, render_items st = Some items /\
     length items = length (filtered_commands st) /\
     forall i, selected st = Some i -> is_Some (items !! i)) /\
  fst (status_counts st) <= snd (status_counts st) /\
  (forall k, exists st', handle_key to_lowercase st k = Some st').
Proof.
  intros Hr.
  pose proof (reach_inv to_lowercase _ _ (app_new_inv to_lowercase H args) Hr) as Hinv.
  pose proof (inv_filtered_in_range st Hinv) as Hrange.
  destruct Hinv as [Heq [Hnil Hsel]].
  split; [exact (reach_history _ _ Hr)|]. split; [|split].
  - destruct (mapM_lookup_in_range _ _ Hrange) as [items [Hm Hl]].
    exists items. split; [exact Hm|]. split; [exact Hl|].
    intros i Hi. apply lookup_lt_is_Some_2. rewrite Hl.
    destruct (filtered_commands st) eqn:Hf.
    + rewrite (Hnil eq_refl) in Hi. discriminate.
    + destruct Hsel as [j [Hj Hlt]]; [discriminate|]. congruence.
  - unfold status_counts; cbn [fst snd]. rewrite Heq.
    apply filter_commands_sorted_bounds.
  - intros k. destruct (handle_key to_lowercase st k) as [st'|] eqn:Hk; [eauto|].
    exfalso. destruct k; cbn [handle_key] in Hk;
      repeat match type of Hk with
             | context [if ?b then _ else _] => destruct b
             end; try discriminate.
    destruct (selected st) as [sel|]; [|discriminate].
    destruct (filtered_commands st !! sel) as [idx|] eqn:Hidx; [|discriminate].
    rewrite Forall_forall in Hrange.
    destruct (lookup_lt_is_Some_2 (command_history st) idx) as [cmd Hcmd].
    + apply Hrange. eapply list_elem_of_lookup_2. exact Hidx.
    + rewrite Hcmd in Hk. discriminate.
Qed.

Lemma handle_key_command_source (st st' : App) (k : KeyCode) :
  handle_key to_lowercase st k = Some st' ->
  selected_command st' = selected_command st \/
  exists idx cmd, command_history st !! idx = Some cmd /\ selected_command st' = Some cmd.
Proof.
  intros Hk. destruct k as [c| | | | | |]; cbn [handle_key] in Hk.
  - left. destruct (N.eqb c ch_q); [injection Hk as <-; reflexivity|].
    destruct (N.eqb c ch_j);
      [injection Hk as <-; unfold select_next; destruct (filtered_commands st); reflexivity|].
    destruct (N.eqb c ch_k);
      [injection Hk as <-; unfold select_previous; destruct (filtered_commands st); reflexivity|].
    injection Hk as <-; reflexivity.
  - injection Hk as <-; left; reflexivity.
  - injection Hk as <-; left; unfold select_next; destruct (filtered_commands st); reflexivity.
  - injection Hk as <-; left; unfold select_previous; destruct (filtered_commands st); reflexivity.
  - injection Hk as <-; left; reflexivity.
  - destruct (selected st) as [sel|]; [|injection Hk as <-; left; reflexivity].
    destruct (filtered_commands st !! sel) as [idx|]; [|injection Hk as <-; left; reflexivity].
    destruct (command_history st !! idx) as [cmd|] eqn:Hc; [|discriminate].
    injection Hk as <-. right. exists idx, cmd. split; [exact Hc|reflexivity].
  - injection Hk as <-; left; reflexivity.
Qed.

Lemma event_loop_finished_source (st0 app st : App) (events : list Event) :
  reach to_lowercase st0 app -> selected_command app = None ->
  event_loop to_lowercase app events = Finished st ->
  command_history st = command_history st0 /\
  forall cmd, selected_command st = Some cmd -> cmd ∈ command_history st0.
Proof.
  revert app; induction events as [|ev events IH]; intros app Hr Hc Hl; [discriminate|].
  cbn [event_loop] in Hl.
  destruct ev as [k|].
  - destruct (handle_key to_lowercase app k) as [app'|] eqn:Hk; [|discriminate].
    pose proof (reach_step _ _ _ _ _ Hr Hk) as Hr'.
    destruct (should_quit app') eqn:Hq.
    + injection Hl as <-. split; [exact (reach_history _ _ Hr')|].
      intros cmd Hcmd. rewrite <- (reach_history _ _ Hr).
      destruct (handle_key_command_source _ _ _ Hk) as [Hs|[idx [cmd' [Hidx Hs]]]].
      * congruence.
      * rewrite Hs in Hcmd. injection Hcmd as ->. eapply list_elem_of_lookup_2. exact Hidx.
    + apply (IH app' Hr'); [|exact Hl].
      rewrite (handle_key_keeps_command to_lowercase _ _ _ Hk Hq). exact Hc.
  - destruct (should_quit app); [injection Hl as <-|].
    + split; [exact (reach_history _ _ Hr)|]. intros cmd Hcmd. congruence.
    + exact (IH app Hr Hc Hl).
Qed.

(** When the session ends, a recorded selection is always an entry of the
    loaded history, and [main] launches exactly the tokens of it. *)
Theorem launched_command_in_history (H args : list rstring) (events : list Event)
    (st : App) (cmd : rstring) :
  event_loop to_lowercase (app_new to_lowercase H args) events = Finished st ->
  selected_command st = Some cmd ->
  cmd ∈ H /\
  after_loop st = Exec (fst (parse_command_string cmd)) (snd (parse_command_string cmd)).
Proof.
  intros Hl Hc.
  destruct (event_loop_finished_source (app_new to_lowercase H args) _ st events
              (reach_refl _ _) eq_refl Hl) as [_ Hin].
  split; [exact (Hin cmd Hc)|].
  unfold after_loop. rewrite Hc. destruct (parse_command_string cmd); reflexivity.
Qed.


Lemma set_selected_same (st : App) : set_selected st (selected st) = st.
Proof. destruct st; reflexivity. Qed.

Lemma set_selected_twice (st : App) (a b : option nat) :
  set_selected (set_selected st a) b = set_selected st b.
Proof. reflexivity. Qed.

(** With the cursor on a valid row, Down then Up, and Up then Down, both
    come back to the same state. *)
Theorem select_next_previous_inverse (st : App) (i : nat) :
  selected st = Some i -> i < length (filtered_commands st) ->
  select_previous (select_next st) = st /\ select_next (select_previous st) = st.
Proof.
  intros Hs Hlt. destruct st as [q h sel s f cmd]; cbn in Hs, Hlt; subst sel.
  unfold select_next, select_previous, set_selected; cbn [filtered_commands selected].
  destruct f as [|x f]; [cbn in Hlt; lia|]. cbn [length] in *.
  split;
    repeat (cbn [selected filtered_commands should_quit command_history search_input
                 selected_command length];
            match goal with
            | |- context [?a <=? ?b] => destruct (Nat.leb_spec a b)
            | |- context [?a =? ?b] => destruct (Nat.eqb_spec a b)
            | _ : context [?a =? ?b] |- _ => destruct (Nat.eqb_spec a b)
            | _ : context [?a <=? ?b] |- _ => destruct (Nat.leb_spec a b)
            end);
    try lia; try (subst; reflexivity); f_equal; f_equal; lia.
Qed.

Lemma select_next_set_step (st : App) (j : nat) :
  j < length (filtered_commands st) ->
  select_next (set_selected st (Some j)) =
    set_selected st (Some ((j + 1) mod length (filtered_commands st))).
Proof.
  intros Hj. destruct st as [q h sel s f cmd]; cbn in Hj.
  unfold select_next, set_selected; cbn [filtered_commands selected].
  destruct f as [|x f]; [cbn in Hj; lia|].
  remember (length (x :: f)) as n eqn:Hn.
  assert (n <> 0) by (subst n; cbn; lia).
  destruct (Nat.leb_spec (n - 1) j).
  - replace (j + 1) with n by lia. rewrite Nat.Div0.mod_same. reflexivity.
  - rewrite Nat.mod_small by lia. reflexivity.
Qed.

(** Pressing Down [k] times from row [i] of a view of [n] rows lands on
    row [(i + k) mod n]; in particular [n] presses come back to the start. *)
Theorem select_next_iterate (st : App) (i : nat) :
  selected st = Some i -> i < length (filtered_commands st) ->
  (forall k, Nat.iter k select_next st =
     set_selected st (Some ((i + k) mod length (filtered_commands st)))) /\
  Nat.iter (length (filtered_commands st)) select_next st = st.
Proof.
  intros Hs Hlt.
  assert (Hk : forall k, Nat.iter k select_next st =
     set_selected st (Some ((i + k) mod length (filtered_commands st)))).
  { induction k as [|k IH].
    - change (Nat.iter 0 select_next st) with st. rewrite Nat.add_0_r, Nat.mod_small by lia.
      rewrite <- Hs. symmetry. apply set_selected_same.
    - rewrite Nat.iter_succ, IH, select_next_set_step
        by (apply Nat.mod_upper_bound; lia).
      f_equal. f_equal. rewrite Nat.Div0.add_mod_idemp_l. f_equal. lia. }
  split; [exact Hk|].
  rewrite Hk. replace (i + length (filtered_commands st))
    with (i + 1 * length (filtered_commands st)) by lia.
  rewrite Nat.Div0.mod_add, Nat.mod_small by lia. rewrite <- Hs. apply set_selected_same.
Qed.

(** In a reachable state, typing a character other than [q], [j], [k]
    and then Backspace restores the query and the filtered view; only
    the cursor is reset to the first row (or [None]). *)
Theorem type_then_backspace (H args : list rstring) (st st1 : App) (c : rchar) :
  reach to_lowercase (app_new to_lowercase H args) st ->
  c <> ch_q -> c <> ch_j -> c <> ch_k ->
  handle_key to_lowercase st (KChar c) = Some st1 ->
  handle_key to_lowercase st1 KBackspace =
    Some (set_selected st (first_or_none (filtered_commands st))).
Proof.
  intros Hr Hq Hj Hk Hst1.
  destruct (reach_inv to_lowercase _ _ (app_new_inv to_lowercase H args) Hr) as [Heq _].
  cbn [handle_key] in Hst1.
  rewrite (proj2 (N.eqb_neq c ch_q) Hq), (proj2 (N.eqb_neq c ch_j) Hj),
    (proj2 (N.eqb_neq c ch_k) Hk) in Hst1.
  injection Hst1 as <-. cbn [handle_key].
  unfold update_filter, set_search, set_selected.
  cbn [command_history search_input should_quit selected_command].
  rewrite removelast_last, <- Heq. reflexivity.
Qed.

End MoreEngine.

(** ** Launcher tokenizer: what it never produces, and plain words *)

Lemma parse_fold_plain_word (w : rstring) (P : list rstring) (cur : rstring) :
  ch_space ∉ w -> ch_quote ∉ w ->
  fold_left parse_step w (mkParseState P cur false) = mkParseState P (cur ++ w) false.
Proof.
  revert cur; induction w as [|c w IH]; intros cur Hs Hq.
  - cbn. rewrite app_nil_r. reflexivity.
  - rewrite not_elem_of_cons in Hs, Hq. cbn [fold_left].
    unfold parse_step at 2; cbn [parts current in_quotes].
    rewrite (proj2 (N.eqb_neq c ch_quote)) by (intros ->; tauto).
    rewrite (proj2 (N.eqb_neq c ch_space)) by (intros ->; tauto). cbn [andb].
    rewrite IH by tauto. rewrite <- app_assoc. reflexivity.
Qed.

Lemma parse_fold_join (words P : list rstring) :
  Forall (fun w => w <> [] /\ (ch_space ∉ w) /\ (ch_quote ∉ w)) words ->
  flush (fold_left parse_step (join [ch_space] words) (mkParseState P [] false)) = P ++ words.
Proof.
  revert P; induction words as [|w words IH]; intros P Hw.
  - cbn. rewrite app_nil_r. reflexivity.
  - inversion Hw as [|? ? [Hne [Hs Hq]] Hrest]; subst.
    destruct words as [|w' words'].
    + cbn [join]. rewrite parse_fold_plain_word by assumption.
      unfold flush; cbn [current parts]. destruct w; [congruence|reflexivity].
    + change (join [ch_space] (w :: w' :: words'))
        with (w ++ [ch_space] ++ join [ch_space] (w' :: words')).
      rewrite !fold_left_app, parse_fold_plain_word by assumption.
      cbn [fold_left app]. unfold parse_step at 2; cbn [parts current in_quotes].
      replace (N.eqb ch_space ch_quote) with false by reflexivity.
      replace (N.eqb ch_space ch_space) with true by reflexivity. cbn [andb negb].
      destruct w as [|a w]; [congruence|]. cbn [is_empty].
      rewrite IH by exact Hrest. rewrite <- app_assoc. reflexivity.
Qed.

(** Joining non-empty words that contain no space and no double quote
    with single spaces, and parsing the result, gives back the first
    word as the program and the other words as the arguments. *)
Theorem parse_join_words (words : list rstring) :
  Forall (fun w => w <> [] /\ (ch_space ∉ w) /\ (ch_quote ∉ w)) words ->
  parse_command_string (join [ch_space] words) =
    (match words with [] => [] | w :: _ => w end, drop 1 words).
Proof.
  intros Hw. unfold parse_command_string, parse_tokens.
  rewrite (parse_fold_join words [] Hw). reflexivity.
Qed.

Definition token_ok (t : rstring) : Prop := t <> [] /\ (ch_quote ∉ t).

Lemma parse_fold_tokens_ok (input : rstring) (st : parse_state) :
  Forall token_ok (parts st) -> ch_quote ∉ current st ->
  Forall token_ok (flush (fold_left parse_step input st)).
Proof.
  revert st; induction input as [|c input IH]; intros st Hp Hc.
  - cbn [fold_left]. unfold flush. destruct (current st) as [|a t] eqn:Hcur; cbn [is_empty].
    + exact Hp.
    + apply Forall_app; split; [exact Hp|].
      constructor; [|constructor]. split; [discriminate|exact Hc].
  - cbn [fold_left]. unfold parse_step at 2.
    destruct (N.eqb_spec c ch_quote) as [->|Hnq].
    { apply IH; cbn [parts current]; assumption. }
    destruct (N.eqb c ch_space && negb (in_quotes st)).
    + destruct (current st) as [|a t] eqn:Hcur; cbn [is_empty].
      * apply IH; [exact Hp|]. rewrite Hcur. apply not_elem_of_nil.
      * apply IH; cbn [parts current].
        -- apply Forall_app; split; [exact Hp|]. constructor; [|constructor].
           split; [discriminate|]. rewrite ?Hcur in *. exact Hc.
        -- apply not_elem_of_nil.
    + apply IH; cbn [parts current]; [exact Hp|].
      rewrite elem_of_app, list_elem_of_singleton. intros [H | H]; [tauto|congruence].
Qed.

(** Whatever the input, every token the launcher produces is non-empty
    and contains no double quote: quotes only toggle the mode and are
    never copied, and empty tokens are never pushed. *)
Theorem parse_tokens_nonempty_unquoted (input : rstring) :
  Forall (fun t => t <> [] /\ (ch_quote ∉ t)) (parse_tokens input).
Proof.
  apply (parse_fold_tokens_ok input (mkParseState [] [] false)); cbn [parts current].
  - constructor.
  - apply not_elem_of_nil.
Qed.

(** ** Concrete runs of the properties above *)

(** A home directory holding only [.bash_history], with lines [ls],
    [cd /tmp], [ls] and a blank line. *)
Definition demo_fs (home name : rstring) : FileState :=
  if decide (name = rs ".bash_history")
  then Contents (rs "ls" ++ [ch_lf] ++ rs "cd /tmp" ++ [ch_lf] ++ rs "ls" ++ [ch_lf]
                 ++ rs "  " ++ [ch_lf])
  else Missing.

(** Enter after one Down on the history seeded with [ls]. *)
Definition demo_app_launch : App :=
  set_quit (set_selected_command demo_app_down (Some (rs "ls -la"))).

Lemma str_lines_unlines_witness :
  Forall (fun l => (ch_lf ∉ l) /\ last l <> Some ch_cr) [rs "ls"; rs "cd /tmp"] /\
  str_lines (concat (map (fun l => l ++ [ch_lf]) [rs "ls"; rs "cd /tmp"])) =
    [rs "ls"; rs "cd /tmp"] /\
  str_lines (concat (map (fun l => l ++ [ch_cr; ch_lf]) [rs "ls"; rs "cd /tmp"])) =
    [rs "ls"; rs "cd /tmp"].
Proof.
  assert (Hw : Forall (fun l => (ch_lf ∉ l) /\ last l <> Some ch_cr) [rs "ls"; rs "cd /tmp"])
    by (apply (bool_decide_unpack _); vm_compute; reflexivity).
  split; [exact Hw|]. exact (str_lines_unlines _ Hw).
Defined.

Lemma load_history_distinct_nonblank_witness :
  load_history (Some (rs "/home/u")) demo_fs = Loaded [rs "ls"; rs "cd /tmp"] /\
  NoDup [rs "ls"; rs "cd /tmp"] /\ Forall (fun cmd => trim cmd <> []) [rs "ls"; rs "cd /tmp"].
Proof.
  assert (Hl : load_history (Some (rs "/home/u")) demo_fs = Loaded [rs "ls"; rs "cd /tmp"])
    by (vm_compute; reflexivity).
  split; [exact Hl|]. exact (load_history_distinct_nonblank _ _ _ Hl).
Defined.

Lemma filter_commands_narrows_witness :
  (exists s, ascii_to_lowercase (rs "l" ++ [115%N]) = ascii_to_lowercase (rs "l") ++ s) /\
  filter_commands ascii_to_lowercase demo_history (rs "l" ++ [115%N]) = [0; 1] /\
  filter_commands ascii_to_lowercase demo_history (rs "l") = [0; 1] /\
  filter_commands ascii_to_lowercase demo_history (rs "l" ++ [115%N]) `sublist_of`
    filter_commands ascii_to_lowercase demo_history (rs "l").
Proof.
  assert (Hs : exists s, ascii_to_lowercase (rs "l" ++ [115%N]) =
                         ascii_to_lowercase (rs "l") ++ s)
    by (exists [115%N]; vm_compute; reflexivity).
  split; [exact Hs|]. split; [vm_compute; reflexivity|]. split; [vm_compute; reflexivity|].
  exact (filter_commands_narrows ascii_to_lowercase demo_history (rs "l") 115%N Hs).
Defined.

Lemma reachable_render_safe_witness :
  reach ascii_to_lowercase (app_new ascii_to_lowercase demo_history [rs "ls"]) demo_app_down /\
  command_history demo_app_down = demo_history /\
  (exists items, render_items demo_app_down = Some items /\
     length items = length (filtered_commands demo_app_down) /\
     forall i, selected demo_app_down = Some i -> is_Some (items !! i)) /\
  fst (status_counts demo_app_down) <= snd (status_counts demo_app_down) /\
  (forall k, exists st', handle_key ascii_to_lowercase demo_app_down k = Some st').
Proof.
  split; [exact demo_app_down_reach|].
  exact (reachable_render_safe ascii_to_lowercase demo_history [rs "ls"] demo_app_down
           demo_app_down_reach).
Defined.

Lemma launched_command_in_history_witness :
  event_loop ascii_to_lowercase (app_new ascii_to_lowercase demo_history [rs "ls"])
    [EKey KDown; EKey KEnter] = Finished demo_app_launch /\
  selected_command demo_app_launch = Some (rs "ls -la") /\
  rs "ls -la" ∈ demo_history /\
  after_loop demo_app_launch = Exec (rs "ls") [rs "-la"].
Proof.
  assert (Hl : event_loop ascii_to_lowercase (app_new ascii_to_lowercase demo_history [rs "ls"])
                 [EKey KDown; EKey KEnter] = Finished demo_app_launch)
    by (vm_compute; reflexivity).
  assert (Hc : selected_command demo_app_launch = Some (rs "ls -la")) by reflexivity.
  split; [exact Hl|]. split; [exact Hc|].
  destruct (launched_command_in_history ascii_to_lowercase demo_history [rs "ls"]
              [EKey KDown; EKey KEnter] demo_app_launch (rs "ls -la") Hl Hc) as [Hin Hx].
  split; [exact Hin|]. rewrite Hx. vm_compute. reflexivity.
Defined.


Lemma select_next_previous_inverse_witness :
  selected demo_app_down = Some 1 /\ 1 < length (filtered_commands demo_app_down) /\
  select_previous (select_next demo_app_down) = demo_app_down /\
  select_next (select_previous demo_app_down) = demo_app_down.
Proof.
  assert (Hs : selected demo_app_down = Some 1) by reflexivity.
  assert (Hl : 1 < length (filtered_commands demo_app_down)) by (vm_compute; lia).
  split; [exact Hs|]. split; [exact Hl|].
  exact (select_next_previous_inverse demo_app_down 1 Hs Hl).
Defined.

Lemma select_next_iterate_witness :
  selected demo_app0_down = Some 1 /\ 1 < length (filtered_commands demo_app0_down) /\
  Nat.iter 2 select_next demo_app0_down = set_selected demo_app0_down (Some 0) /\
  Nat.iter (length (filtered_commands demo_app0_down)) select_next demo_app0_down =
    demo_app0_down.
Proof.
  assert (Hs : selected demo_app0_down = Some 1) by reflexivity.
  assert (Hl : 1 < length (filtered_commands demo_app0_down)) by (vm_compute; lia).
  split; [exact Hs|]. split; [exact Hl|].
  destruct (select_next_iterate demo_app0_down 1 Hs Hl) as [Hk Hn].
  split; [|exact Hn]. rewrite Hk. vm_compute. reflexivity.
Defined.

Lemma type_then_backspace_witness :
  reach ascii_to_lowercase (app_new ascii_to_lowercase demo_history [rs "ls"]) demo_app_down /\
  exists st1,
    handle_key ascii_to_lowercase demo_app_down (KChar 120%N) = Some st1 /\
    search_input st1 = rs "lsx" /\ filtered_commands st1 = [] /\
    handle_key ascii_to_lowercase st1 KBackspace =
      Some (set_selected demo_app_down (Some 0)).
Proof.
  split; [exact demo_app_down_reach|].
  assert (Hk : handle_key ascii_to_lowercase demo_app_down (KChar 120%N) =
                 Some (update_filter ascii_to_lowercase
                         (set_search demo_app_down (rs "lsx")))) by (vm_compute; reflexivity).
  eexists. split; [exact Hk|]. split; [reflexivity|]. split; [vm_compute; reflexivity|].
  rewrite (type_then_backspace ascii_to_lowercase demo_history [rs "ls"] demo_app_down _ 120%N
             demo_app_down_reach ltac:(unfold ch_q; lia) ltac:(unfold ch_j; lia)
             ltac:(unfold ch_k; lia) Hk).
  reflexivity.
Defined.

Lemma parse_join_words_witness :
  Forall (fun w => w <> [] /\ (ch_space ∉ w) /\ (ch_quote ∉ w)) [rs "git"; rs "status"; rs "-s"] /\
  join [ch_space] [rs "git"; rs "status"; rs "-s"] = rs "git status -s" /\
  parse_command_string (rs "git status -s") = (rs "git", [rs "status"; rs "-s"]).
Proof.
  assert (Hw : Forall (fun w => w <> [] /\ (ch_space ∉ w) /\ (ch_quote ∉ w))
                 [rs "git"; rs "status"; rs "-s"])
    by (apply (bool_decide_unpack _); vm_compute; reflexivity).
  assert (Hj : join [ch_space] [rs "git"; rs "status"; rs "-s"] = rs "git status -s")
    by (vm_compute; reflexivity).
  split; [exact Hw|]. split; [exact Hj|].
  rewrite <- Hj. exact (parse_join_words _ Hw).
Defined.

(** The same home directory with a [.zsh_history] added; one with only
    that file; and one with that file, no [.bash_history], and every
    other file failing to read. *)
Definition demo_fs_zsh (home name : rstring) : FileState :=
  if decide (name = rs ".zsh_history")
  then Contents (rs ": 1700000000:0;git status" ++ [ch_lf])
  else demo_fs home name.

Definition demo_fs_zsh_only (home name : rstring) : FileState :=
  if decide (name = rs ".zsh_history") then demo_fs_zsh home name else Missing.

Definition demo_fs_zsh_errs (home name : rstring) : FileState :=
  if decide (name = rs ".zsh_history") then demo_fs_zsh home name
  else if decide (name = rs ".bash_history") then Missing else ReadError.

Lemma load_history_sources_witness :
  demo_fs_zsh (rs "/home/u") (rs ".bash_history") <> Missing /\
  load_history (Some (rs "/home/u")) demo_fs_zsh = Loaded [rs "ls"; rs "cd /tmp"] /\
  demo_fs_zsh_only (rs "/home/u") (rs ".bash_history") = Missing /\
  load_history (Some (rs "/home/u")) demo_fs_zsh_only = Loaded [rs "git status"].
Proof.
  destruct load_history_sources as [_ [Hbash [Hzsh _]]].
  assert (Hb : demo_fs_zsh (rs "/home/u") (rs ".bash_history") <> Missing)
    by (vm_compute; discriminate).
  assert (Hm : demo_fs_zsh_only (rs "/home/u") (rs ".bash_history") = Missing)
    by (vm_compute; reflexivity).
  split; [exact Hb|]. split.
  - rewrite (Hbash (rs "/home/u") demo_fs_zsh demo_fs ltac:(vm_compute; reflexivity) Hb).
    vm_compute. reflexivity.
  - split; [exact Hm|].
    rewrite (Hzsh (rs "/home/u") demo_fs_zsh_only demo_fs_zsh_errs Hm
               ltac:(vm_compute; reflexivity) ltac:(vm_compute; reflexivity)).
    vm_compute. reflexivity.
Defined.
